(** * actix-http: the HTTP/1 codec ([h1/codec.rs]) and the connection
    service ([service.rs]).

    The codec is embedded as explicit state passing: every [&mut self]
    method takes a [Codec] and returns the updated one together with the
    (possibly updated) buffer and the [Result].  The inner message decoder,
    the message encoder, the request type and the service configuration
    live in other files of the crate ([h1/decoder.rs], [h1/encoder.rs],
    [request.rs], [config.rs]); the codec is generic over them as Section
    variables, so every codec theorem holds for any implementation of
    those collaborators. *)

From Stdlib Require Import ZArith Bool List String Lia.
Import ListNotations.
Open Scope Z_scope.

(** Rust's [Result]. *)
Inductive result (A E : Type) : Type :=
| Ok (a : A)
| Err (e : E).
Arguments Ok {A E} a.
Arguments Err {A E} e.

(** Rust's [Poll]. *)
Inductive Poll (A : Type) : Type :=
| Ready (a : A)
| Pending.
Arguments Ready {A} a.
Arguments Pending {A}.

(** [bytes::BytesMut]. *)
Definition BytesMut := list Byte.byte.

(** ** Types of the [http] crate and of [crate::message] *)

(** [http::Method]: the standard methods and extension tokens. *)
Inductive Method : Type :=
| OPTIONS | GET | POST | PUT | DELETE | HEAD | TRACE | CONNECT | PATCH
| Extension (tok : string).

Definition method_eqb (a b : Method) : bool :=
  match a, b with
  | OPTIONS, OPTIONS | GET, GET | POST, POST | PUT, PUT | DELETE, DELETE
  | HEAD, HEAD | TRACE, TRACE | CONNECT, CONNECT | PATCH, PATCH => true
  | Extension x, Extension y => String.eqb x y
  | _, _ => false
  end.

(** [http::Version]. *)
Inductive Version : Type := HTTP_09 | HTTP_10 | HTTP_11 | HTTP_2 | HTTP_3.

(** [crate::message::ConnectionType]. *)
Inductive ConnectionType : Type := Close | KeepAlive | Upgrade.

Definition ctype_eqb (a b : ConnectionType) : bool :=
  match a, b with
  | Close, Close | KeepAlive, KeepAlive | Upgrade, Upgrade => true
  | _, _ => false
  end.

(** Modelled from the spec: [crate::h1::decoder::PayloadType] (decoder.rs is
    not among the sources); "None | Payload(BodyStream) | Stream(BodyStream)
    | Upgrade(BodyStream)", over the payload decoder type [P]. *)
Inductive PayloadType (P : Type) : Type :=
| PT_None
| PT_Payload (pl : P)
| PT_Stream (pl : P)
| PT_Upgrade (pl : P).
Arguments PT_None {P}.
Arguments PT_Payload {P} pl.
Arguments PT_Stream {P} pl.
Arguments PT_Upgrade {P} pl.

(** [crate::body::BodySize]. *)
Inductive BodySize : Type :=
| BS_None | BS_Empty | BS_Sized (n : Z) | BS_Stream.

(** Modelled from the spec: the head of a [Response<()>] (response.rs is not
    among the sources), with the two fields the codec reads and writes: the
    version and the explicit connection type [ctype()]. *)
Record ResponseHead : Type := mkResponseHead {
  rh_status : Z;
  rh_version : Version;
  rh_ctype : option ConnectionType
}.

Definition Response := ResponseHead.

Definition set_version (res : Response) (v : Version) : Response :=
  mkResponseHead (rh_status res) v (rh_ctype res).

(** [crate::h1::Message]. *)
Inductive Message (T : Type) : Type :=
| Item (t : T)
| Chunk (c : option BytesMut).
Arguments Item {T} t.
Arguments Chunk {T} c.

(** ** The [Flags] bitset ([bitflags!], [u8]) *)

Definition HEAD_FLAG : Z := 1.               (* 0b0000_0001 *)
Definition KEEPALIVE_ENABLED : Z := 2.       (* 0b0000_0010 *)
Definition STREAM : Z := 4.                  (* 0b0000_0100 *)
Definition Flags_empty : Z := 0.

Definition contains (f other : Z) : bool := Z.land f other =? other.
Definition insert (f other : Z) : Z := Z.lor f other.
Definition remove (f other : Z) : Z := Z.land f (Z.lnot other).
Definition set (f other : Z) (value : bool) : Z :=
  if value then insert f other else remove f other.

(** ** [h1::Codec] *)
Module H1.
Section Codec.

(* crate::config::ServiceConfig *)
Variable ServiceConfig : Type.
Variable keep_alive_enabled : ServiceConfig -> bool.
(* crate::request::Request, with what the codec reads from its head *)
Variable Request : Type.
Variable req_method : Request -> Method.
Variable req_version : Request -> Version.
Variable req_connection_type : Request -> ConnectionType.
(* the errors of the two halves *)
Variable ParseError IoError : Type.
(* decoder::MessageDecoder<Request> *)
Variable PayloadDecoder : Type.
Variable MessageDecoder : Type.
Variable decoder_default : MessageDecoder.
Variable decoder_decode : MessageDecoder -> BytesMut ->
  MessageDecoder * BytesMut
  * result (option (Request * PayloadType PayloadDecoder)) ParseError.
(* encoder::MessageEncoder<Response<()>> *)
Variable MessageEncoder : Type.
Variable encoder_default : MessageEncoder.
Variable encoder_encode : MessageEncoder -> BytesMut -> Response -> bool -> bool
  -> Version -> BodySize -> ConnectionType -> ServiceConfig
  -> MessageEncoder * BytesMut * result unit IoError.
Variable encoder_encode_chunk : MessageEncoder -> BytesMut -> BytesMut ->
  MessageEncoder * BytesMut * result unit IoError.
Variable encoder_encode_eof : MessageEncoder -> BytesMut ->
  MessageEncoder * BytesMut * result unit IoError.

Record Codec : Type := mkCodec {
  config : ServiceConfig;
  decoder : MessageDecoder;
  version : Version;
  ctype : ConnectionType;
  flags : Z;
  encoder : MessageEncoder
}.

(** [Codec::new]. *)
Definition new (cfg : ServiceConfig) : Codec :=
  let flags := if keep_alive_enabled cfg then KEEPALIVE_ENABLED else Flags_empty in
  mkCodec cfg decoder_default HTTP_11 Close flags encoder_default.

Definition upgrade (c : Codec) : bool := ctype_eqb (ctype c) Upgrade.
Definition keepalive (c : Codec) : bool := ctype_eqb (ctype c) KeepAlive.
Definition keepalive_enabled (c : Codec) : bool :=
  contains (flags c) KEEPALIVE_ENABLED.

Definition is_stream (p : PayloadType PayloadDecoder) : bool :=
  match p with PT_Stream _ => true | _ => false end.

(** [<Codec as Decoder>::decode]: the state, the buffer and the result. *)
Definition decode (c : Codec) (src : BytesMut) :
  Codec * BytesMut * result (option (Request * PayloadType PayloadDecoder)) ParseError :=
  let '(d, src, r) := decoder_decode (decoder c) src in
  let c := mkCodec (config c) d (version c) (ctype c) (flags c) (encoder c) in
  match r with
  | Err e => (c, src, Err e)
  | Ok None => (c, src, Ok None)
  | Ok (Some (req, payload)) =>
      let fl := set (flags c) HEAD_FLAG (method_eqb (req_method req) HEAD) in
      let v := req_version req in
      let ct := req_connection_type req in
      let ct := if ctype_eqb ct KeepAlive && negb (contains fl KEEPALIVE_ENABLED)
                then Close else ct in
      let fl := if is_stream payload then insert fl STREAM else fl in
      (mkCodec (config c) d v ct fl (encoder c), src, Ok (Some (req, payload)))
  end.

(** The connection status reconciliation of the [Message::Item] arm. *)
Definition reconcile_ctype (cur : ConnectionType) (res : Response) : ConnectionType :=
  match rh_ctype res with
  | Some ct => if ctype_eqb ct KeepAlive then cur else ct
  | None => cur
  end.

(** [<Codec as Encoder<Message<(Response<()>, BodySize)>>>::encode]. *)
Definition encode (c : Codec) (item : Message (Response * BodySize)) (dst : BytesMut) :
  Codec * BytesMut * result unit IoError :=
  match item with
  | Item (res, length) =>
      let res := set_version res (version c) in
      let ct := reconcile_ctype (ctype c) res in
      let '(e, dst, r) :=
        encoder_encode (encoder c) dst res (contains (flags c) HEAD_FLAG)
          (contains (flags c) STREAM) (version c) length ct (config c) in
      (mkCodec (config c) (decoder c) (version c) ct (flags c) e, dst, r)
  | Chunk (Some bytes) =>
      let '(e, dst, r) := encoder_encode_chunk (encoder c) bytes dst in
      (mkCodec (config c) (decoder c) (version c) (ctype c) (flags c) e, dst, r)
  | Chunk None =>
      let '(e, dst, r) := encoder_encode_eof (encoder c) dst in
      (mkCodec (config c) (decoder c) (version c) (ctype c) (flags c) e, dst, r)
  end.

(** One call of [decode] or [encode] on the codec, successful or not (the
    codec is mutated through [&mut self] either way). *)
Inductive step : Codec -> Codec -> Prop :=
| step_decode c src c' src' r :
    decode c src = (c', src', r) -> step c c'
| step_encode c m dst c' dst' r :
    encode c m dst = (c', dst', r) -> step c c'.

Inductive reachable (cfg : ServiceConfig) : Codec -> Prop :=
| reach_new : reachable cfg (new cfg)
| reach_step c c' : reachable cfg c -> step c c' -> reachable cfg c'.

(** The state invariant 1 of the spec: [KeepAlive] only with the policy flag. *)
Definition keepalive_gated (c : Codec) : Prop :=
  ctype c = KeepAlive -> contains (flags c) KEEPALIVE_ENABLED = true.

End Codec.

Arguments mkCodec {ServiceConfig MessageDecoder MessageEncoder}.
Arguments config {ServiceConfig MessageDecoder MessageEncoder}.
Arguments decoder {ServiceConfig MessageDecoder MessageEncoder}.
Arguments version {ServiceConfig MessageDecoder MessageEncoder}.
Arguments ctype {ServiceConfig MessageDecoder MessageEncoder}.
Arguments flags {ServiceConfig MessageDecoder MessageEncoder}.
Arguments encoder {ServiceConfig MessageDecoder MessageEncoder}.
Arguments upgrade {ServiceConfig MessageDecoder MessageEncoder}.
Arguments keepalive {ServiceConfig MessageDecoder MessageEncoder}.
Arguments keepalive_enabled {ServiceConfig MessageDecoder MessageEncoder}.
Arguments new {ServiceConfig} keep_alive_enabled {MessageDecoder} decoder_default
  {MessageEncoder} encoder_default cfg.
Arguments is_stream {PayloadDecoder}.
Arguments keepalive_gated {ServiceConfig MessageDecoder MessageEncoder}.
Arguments decode {ServiceConfig Request} req_method req_version req_connection_type
  {ParseError PayloadDecoder MessageDecoder} decoder_decode {MessageEncoder} c src.
Arguments encode {ServiceConfig IoError MessageDecoder MessageEncoder}
  encoder_encode encoder_encode_chunk encoder_encode_eof c item dst.
Arguments step {ServiceConfig Request} req_method req_version req_connection_type
  {ParseError IoError PayloadDecoder MessageDecoder} decoder_decode {MessageEncoder}
  encoder_encode encoder_encode_chunk encoder_encode_eof.
Arguments reachable {ServiceConfig} keep_alive_enabled {Request}
  req_method req_version req_connection_type {ParseError IoError PayloadDecoder
  MessageDecoder} decoder_default decoder_decode {MessageEncoder} encoder_default
  encoder_encode encoder_encode_chunk encoder_encode_eof cfg.
End H1.

(** ** [service.rs] *)
Module HttpService.

(** [crate::Protocol]. *)
Inductive Protocol : Type := Http1 | Http2 | Http3.

(** [protos.windows(2).any(|window| window == b"h2")]. *)
Fixpoint windows2_any_h2 (protos : list Byte.byte) : bool :=
  match protos with
  | a :: ((b :: _) as rest) =>
      (Byte.eqb a Byte.x68 && Byte.eqb b Byte.x32) || windows2_any_h2 rest
  | _ => false
  end.

Section Acceptors.
Variables Io SocketAddr : Type.

(** [HttpService::tcp]: the first stage of the pipeline. *)
Definition tcp_stage (io : Io) (peer_addr : option SocketAddr) :
  Io * Protocol * option SocketAddr :=
  (io, Http1, peer_addr).

(** [HttpService::openssl]: the stage after the TLS acceptor;
    [selected_alpn_protocol] is the ALPN protocol of the session. *)
Definition openssl_stage (io : Io) (selected_alpn_protocol : option (list Byte.byte))
  (peer_addr : option SocketAddr) : Io * Protocol * option SocketAddr :=
  let proto :=
    match selected_alpn_protocol with
    | Some protos => if windows2_any_h2 protos then Http2 else Http1
    | None => Http1
    end in
  (io, proto, peer_addr).

(** [HttpService::rustls]: the stage after the TLS acceptor;
    [get_alpn_protocol] is the ALPN protocol of the session. *)
Definition rustls_stage (io : Io) (get_alpn_protocol : option (list Byte.byte))
  (peer_addr : option SocketAddr) : Io * Protocol * option SocketAddr :=
  let proto :=
    match get_alpn_protocol with
    | Some protos => if windows2_any_h2 protos then Http2 else Http1
    | None => Http1
    end in
  (io, proto, peer_addr).
End Acceptors.

Section Flow.
(* the three services and their common error type after [.into()] *)
Variables S X U Error : Type.

(** [HttpFlow]. *)
Record HttpFlow : Type := mkHttpFlow {
  service : S;
  expect : X;
  upgrade : option U
}.

(** [DispatchError], with the variant [poll_ready] produces. *)
Inductive DispatchError : Type :=
| DE_Service (e : Error)
| DE_Other.

(** Which sub-service a readiness check consulted. *)
Inductive Sub : Type := SubExpect | SubService | SubUpgrade.

(* [poll_ready] of the three services, in the current task context *)
Variable poll_ready_s : S -> Poll (result unit Error).
Variable poll_ready_x : X -> Poll (result unit Error).
Variable poll_ready_u : U -> Poll (result unit Error).

(** [e?] on the [Poll<Result<(), E>>] of a sub-service followed by
    [.is_ready()]: an error returns early, otherwise readiness. *)
Definition ready_of (p : Poll (result unit Error)) : result bool Error :=
  match p with
  | Ready (Ok _) => Ok true
  | Ready (Err e) => Err e
  | Pending => Ok false
  end.

(** [HttpServiceHandler::poll_ready]: the services consulted, in order, and
    the result. *)
Definition poll_ready (flow : HttpFlow) : list Sub * Poll (result unit DispatchError) :=
  match ready_of (poll_ready_x (expect flow)) with
  | Err e => ([SubExpect], Ready (Err (DE_Service e)))
  | Ok ready =>
    match ready_of (poll_ready_s (service flow)) with
    | Err e => ([SubExpect; SubService], Ready (Err (DE_Service e)))
    | Ok rs =>
      let ready := rs && ready in
      match upgrade flow with
      | Some upg =>
          match ready_of (poll_ready_u upg) with
          | Err e => ([SubExpect; SubService; SubUpgrade], Ready (Err (DE_Service e)))
          | Ok ru =>
              let ready := ru && ready in
              ([SubExpect; SubService; SubUpgrade],
               if ready then Ready (Ok tt) else Pending)
          end
      | None =>
          ([SubExpect; SubService], if ready then Ready (Ok tt) else Pending)
      end
    end
  end.

End Flow.

Arguments mkHttpFlow {S X U}.
Arguments service {S X U}.
Arguments expect {S X U}.
Arguments upgrade {S X U}.
Arguments DE_Service {Error}.
Arguments DE_Other {Error}.
Arguments ready_of {Error}.
Arguments poll_ready {S X U Error} poll_ready_s poll_ready_x poll_ready_u flow.

Section Construction.
(* the three factories, the services they build, and the rest of the
   handler's fields *)
Variables SF XF UF S X U FS FX FU ServiceConfig ConnectCallback : Type.
Variable srv_new_service : SF -> FS.
Variable expect_new_service : XF -> FX.
Variable upgrade_new_service : UF -> FU.

(** The factory [HttpService] (the fields [new_service] reads). *)
Record HttpServiceFactory : Type := mkHttpServiceFactory {
  srv : SF;
  cfg : ServiceConfig;
  expect_f : XF;
  upgrade_f : option UF;
  on_connect_ext : option ConnectCallback
}.

(** The future [HttpServiceResponse]. *)
Record HttpServiceResponse : Type := mkHttpServiceResponse {
  fut : FS;
  fut_ex : option FX;
  fut_upg : option FU;
  r_expect : option X;
  r_upgrade : option U;
  r_on_connect_ext : option ConnectCallback;
  r_cfg : ServiceConfig
}.

(** [HttpServiceHandler] (its [flow] is the [Rc<HttpFlow>]). *)
Record HttpServiceHandler : Type := mkHttpServiceHandler {
  flow : HttpFlow S X U;
  h_cfg : ServiceConfig;
  h_on_connect_ext : option ConnectCallback
}.

(** [HttpService::new_service]. *)
Definition new_service (f : HttpServiceFactory) : HttpServiceResponse :=
  mkHttpServiceResponse (srv_new_service (srv f)) (Some (expect_new_service (expect_f f)))
    (option_map upgrade_new_service (upgrade_f f)) None None (on_connect_ext f) (cfg f).

(** [HttpServiceHandler::new]. *)
Definition handler_new (c : ServiceConfig) (service : S) (expect : X) (upgrade : option U)
  (oc : option ConnectCallback) : HttpServiceHandler :=
  mkHttpServiceHandler (mkHttpFlow service expect upgrade) c oc.

(** What the pending sub-futures report when [poll] polls them, in one call;
    the init errors are logged and dropped ([map_err] to [()]). *)
Record Round : Type := mkRound {
  o_ex : Poll (result X unit);
  o_upg : Poll (result U unit);
  o_main : Poll (result S unit)
}.

(** The result of one [poll]; [Panic] is [expect.take().unwrap()] on [None]. *)
Inductive Outcome : Type :=
| O_Pending
| O_Err
| O_Ok (h : HttpServiceHandler)
| O_Panic.

(** A sub-future resolved successfully with this value during a [poll]. *)
Inductive Event : Type :=
| Ev_expect (x : X)
| Ev_upgrade (u : U)
| Ev_main (s : S).

(** [<HttpServiceResponse as Future>::poll]. *)
Definition poll (st : HttpServiceResponse) (rd : Round) :
  HttpServiceResponse * list Event * Outcome :=
  let step_ex :=
    match fut_ex st with
    | Some _ =>
        match o_ex rd with
        | Pending => inr (st, [], O_Pending)
        | Ready (Err _) => inr (st, [], O_Err)
        | Ready (Ok x) =>
            inl (mkHttpServiceResponse (fut st) None (fut_upg st) (Some x) (r_upgrade st)
                   (r_on_connect_ext st) (r_cfg st), [Ev_expect x])
        end
    | None => inl (st, [])
    end in
  match step_ex with
  | inr res => res
  | inl (st, ev) =>
    let step_upg :=
      match fut_upg st with
      | Some _ =>
          match o_upg rd with
          | Pending => inr (st, ev, O_Pending)
          | Ready (Err _) => inr (st, ev, O_Err)
          | Ready (Ok u) =>
              inl (mkHttpServiceResponse (fut st) (fut_ex st) None (r_expect st) (Some u)
                     (r_on_connect_ext st) (r_cfg st), ev ++ [Ev_upgrade u])
          end
      | None => inl (st, ev)
      end in
    match step_upg with
    | inr res => res
    | inl (st, ev) =>
      match o_main rd with
      | Pending => (st, ev, O_Pending)
      | Ready (Err _) => (st, ev, O_Err)
      | Ready (Ok service) =>
          let st' := mkHttpServiceResponse (fut st) (fut_ex st) (fut_upg st) None None
                       (r_on_connect_ext st) (r_cfg st) in
          match r_expect st with
          | None => (st', ev ++ [Ev_main service], O_Panic)
          | Some x =>
              (st', ev ++ [Ev_main service],
               O_Ok (handler_new (r_cfg st) service x (r_upgrade st) (r_on_connect_ext st)))
          end
      end
    end
  end.

(** Driving the future: poll once per round until it is no longer pending;
    the events of all the polls and the first non-pending outcome. *)
Fixpoint run (st : HttpServiceResponse) (rounds : list Round) : list Event * Outcome :=
  match rounds with
  | [] => ([], O_Pending)
  | rd :: rest =>
      let '(st', ev, o) := poll st rd in
      match o with
      | O_Pending => let '(ev', o') := run st' rest in (ev ++ ev', o')
      | _ => (ev, o)
      end
  end.

(** The invariant of the future between polls, for the factory [f] and the
    events so far. *)
Definition response_inv (f : HttpServiceFactory) (st : HttpServiceResponse)
  (evs : list Event) : Prop :=
  r_cfg st = cfg f
  /\ (fut_ex st = None -> exists x, r_expect st = Some x /\ In (Ev_expect x) evs)
  /\ (forall s, ~ In (Ev_main s) evs)
  /\ match fut_upg st with
     | Some _ => upgrade_f f <> None /\ r_upgrade st = None
     | None => (r_upgrade st = None <-> upgrade_f f = None)
               /\ (forall u, r_upgrade st = Some u -> In (Ev_upgrade u) evs)
     end.

(** The events so far, read off the state of the future: nothing before the
    expect service resolved, then that service, then the upgrade service
    once it resolved. *)
Definition response_trace_inv (st : HttpServiceResponse) (evs : list Event) : Prop :=
  match fut_ex st with
  | Some _ => evs = [] /\ r_expect st = None /\ r_upgrade st = None
  | None =>
      exists x, r_expect st = Some x /\
      match fut_upg st, r_upgrade st with
      | _, None => evs = [Ev_expect x]
      | None, Some u => evs = [Ev_expect x; Ev_upgrade u]
      | Some _, Some _ => False
      end
  end.

End Construction.

Arguments mkHttpServiceFactory {SF XF UF ServiceConfig ConnectCallback}.
Arguments mkHttpServiceResponse {X U FS FX FU ServiceConfig ConnectCallback}.
Arguments mkHttpServiceHandler {S X U ServiceConfig ConnectCallback}.
Arguments flow {S X U ServiceConfig ConnectCallback}.
Arguments h_cfg {S X U ServiceConfig ConnectCallback}.
Arguments h_on_connect_ext {S X U ServiceConfig ConnectCallback}.
Arguments fut_ex {X U FS FX FU ServiceConfig ConnectCallback}.
Arguments fut_upg {X U FS FX FU ServiceConfig ConnectCallback}.
Arguments r_expect {X U FS FX FU ServiceConfig ConnectCallback}.
Arguments r_upgrade {X U FS FX FU ServiceConfig ConnectCallback}.
Arguments upgrade_f {SF XF UF ServiceConfig ConnectCallback}.
Arguments new_service {SF XF UF X U FS FX FU ServiceConfig ConnectCallback}
  srv_new_service expect_new_service upgrade_new_service f.
Arguments mkRound {S X U}.
Arguments o_ex {S X U}.
Arguments o_upg {S X U}.
Arguments o_main {S X U}.
Arguments O_Pending {S X U ServiceConfig ConnectCallback}.
Arguments O_Err {S X U ServiceConfig ConnectCallback}.
Arguments O_Ok {S X U ServiceConfig ConnectCallback}.
Arguments O_Panic {S X U ServiceConfig ConnectCallback}.
Arguments Ev_expect {S X U}.
Arguments Ev_upgrade {S X U}.
Arguments Ev_main {S X U}.
Arguments poll {S X U FS FX FU ServiceConfig ConnectCallback}.
Arguments response_inv {SF XF UF S X U FS FX FU ServiceConfig ConnectCallback}.
Arguments r_cfg {X U FS FX FU ServiceConfig ConnectCallback}.
Arguments cfg {SF XF UF ServiceConfig ConnectCallback}.
Arguments run {S X U FS FX FU ServiceConfig ConnectCallback}.
Arguments response_trace_inv {S X U FS FX FU ServiceConfig ConnectCallback}.
Arguments srv {SF XF UF ServiceConfig ConnectCallback}.
Arguments expect_f {SF XF UF ServiceConfig ConnectCallback}.
Arguments on_connect_ext {SF XF UF ServiceConfig ConnectCallback}.
Arguments r_on_connect_ext {X U FS FX FU ServiceConfig ConnectCallback}.

(** The builder methods of [HttpService]. *)
Module Builder.
Section Builder.
Variables SF XF UF ServiceConfig ConnectCallback : Type.

(** [HttpService::new]: [expect_handler] is [h1::ExpectHandler], and
    [default_cfg] is [ServiceConfig::new(KeepAlive::Timeout(5), 5000, 0,
    false, None)] (config.rs is not among the sources). *)
Definition new (expect_handler : XF) (default_cfg : ServiceConfig) (service : SF) :
  HttpServiceFactory SF XF UF ServiceConfig ConnectCallback :=
  mkHttpServiceFactory service default_cfg expect_handler None None.

(** [HttpService::with_config]. *)
Definition with_config (expect_handler : XF) (cfg : ServiceConfig) (service : SF) :
  HttpServiceFactory SF XF UF ServiceConfig ConnectCallback :=
  mkHttpServiceFactory service cfg expect_handler None None.

(** [HttpService::expect]. *)
Definition expect {X1F : Type} (self : HttpServiceFactory SF XF UF ServiceConfig ConnectCallback)
  (expect : X1F) : HttpServiceFactory SF X1F UF ServiceConfig ConnectCallback :=
  mkHttpServiceFactory (srv self) (cfg self) expect (upgrade_f self) (on_connect_ext self).

(** [HttpService::upgrade]. *)
Definition upgrade {U1F : Type} (self : HttpServiceFactory SF XF UF ServiceConfig ConnectCallback)
  (upgrade : option U1F) : HttpServiceFactory SF XF U1F ServiceConfig ConnectCallback :=
  mkHttpServiceFactory (srv self) (cfg self) (expect_f self) upgrade (on_connect_ext self).

(** [HttpService::on_connect_ext]. *)
Definition on_connect_ext (self : HttpServiceFactory SF XF UF ServiceConfig ConnectCallback)
  (f : option ConnectCallback) : HttpServiceFactory SF XF UF ServiceConfig ConnectCallback :=
  mkHttpServiceFactory (srv self) (cfg self) (expect_f self) (upgrade_f self) f.

End Builder.
Arguments new {SF XF} UF {ServiceConfig} ConnectCallback.
Arguments with_config {SF XF} UF {ServiceConfig} ConnectCallback.
Arguments expect {SF XF UF ServiceConfig ConnectCallback X1F}.
Arguments upgrade {SF XF UF ServiceConfig ConnectCallback U1F}.
Arguments on_connect_ext {SF XF UF ServiceConfig ConnectCallback}.
End Builder.

Section Call.
Variables S X U ServiceConfig ConnectCallback Io SocketAddr OnConnectData : Type.
(* [OnConnectData::from_io] *)
Variable from_io : Io -> option ConnectCallback -> OnConnectData.

(** The future [call] returns, by the branch it takes on the protocol, with
    the arguments that branch starts from. *)
Inductive Dispatch : Type :=
(* [server::handshake(io)], then [Dispatcher::new(flow, connection,
   on_connect_data, config, None, peer_addr)] *)
| D_H2 (io : Io) (flow : HttpFlow S X U) (on_connect_data : OnConnectData)
    (config : ServiceConfig) (peer_addr : option SocketAddr)
(* [h1::h1_dispatch(io, flow, on_connect_data, peer_addr, config)] *)
| D_H1 (io : Io) (flow : HttpFlow S X U) (on_connect_data : OnConnectData)
    (peer_addr : option SocketAddr) (config : ServiceConfig)
(* [unimplemented!("Unsupported HTTP version: {:?}.", proto)] *)
| D_Unimplemented (proto : Protocol).

(** [HttpServiceHandler::call]. *)
Definition call (h : HttpServiceHandler S X U ServiceConfig ConnectCallback)
  (req : Io * Protocol * option SocketAddr) : Dispatch :=
  let '(io, proto, peer_addr) := req in
  let on_connect_data := from_io io (h_on_connect_ext h) in
  let config := h_cfg h in
  let flow := flow h in
  match proto with
  | Http2 => D_H2 io flow on_connect_data config peer_addr
  | Http1 => D_H1 io flow on_connect_data peer_addr config
  | proto => D_Unimplemented proto
  end.

End Call.
Arguments D_H2 {S X U ServiceConfig Io SocketAddr OnConnectData}.
Arguments D_H1 {S X U ServiceConfig Io SocketAddr OnConnectData}.
Arguments D_Unimplemented {S X U ServiceConfig Io SocketAddr OnConnectData}.
Arguments call {S X U ServiceConfig ConnectCallback Io SocketAddr OnConnectData} from_io h req.
End HttpService.

(** ** The wire side of the collaborators, for the end-to-end scenario

    [h1/decoder.rs] and [config.rs] are not among the sources; the pieces of
    them the scenario S1 runs through are modelled here from the spec's
    parsing rules (section 4.1) and its configuration interface (section
    6).  Header-count and head-size limits are not modelled. *)
Module Wire.

Definition bytes_eqb (a b : list Byte.byte) : bool :=
  (List.length a =? List.length b)%nat && forallb (fun p => Byte.eqb (fst p) (snd p)) (combine a b).

Definition bs (s : string) : list Byte.byte := list_byte_of_string s.

Definition lower (b : Byte.byte) : Byte.byte :=
  let n := Byte.to_nat b in
  if ((65 <=? n) && (n <=? 90))%nat then
    match Byte.of_nat (n + 32) with Some b' => b' | None => b end
  else b.

(** Modelled from the spec: [ServiceConfig] ("keep-alive mode (Disabled |
    Timeout(seconds) | OS), client timeout ms, client shutdown ms"). *)
Inductive KeepAliveMode : Type := KA_Disabled | KA_Timeout (secs : Z) | KA_Os.

Record ServiceConfig : Type := mkServiceConfig {
  keep_alive : KeepAliveMode;
  client_timeout : Z;
  client_shutdown : Z
}.

(** Modelled from the spec: [ServiceConfig::keep_alive_enabled], "server-level
    policy permits reuse at all". *)
Definition keep_alive_enabled (c : ServiceConfig) : bool :=
  match keep_alive c with KA_Disabled => false | _ => true end.

(** Modelled from the spec: the request head [MessageDecoder] produces. *)
Record Request : Type := mkRequest {
  rq_method : Method;
  rq_path : list Byte.byte;
  rq_version : Version;
  rq_headers : list (list Byte.byte * list Byte.byte)   (* lower-cased names *)
}.

Definition header (r : Request) (name : string) : option (list Byte.byte) :=
  option_map snd (find (fun h => bytes_eqb (fst h) (bs name)) (rq_headers r)).

(** Modelled from the spec (scenarios S2, S3): [RequestHead::connection_type],
    the explicit [Connection] header, else close below HTTP/1.1 and
    keep-alive from it on. *)
Definition connection_type (r : Request) : ConnectionType :=
  let explicit :=
    match header r "connection" with
    | Some v =>
        let v := map lower v in
        if bytes_eqb v (bs "close") then Some Close
        else if bytes_eqb v (bs "keep-alive") then Some KeepAlive
        else if bytes_eqb v (bs "upgrade") then Some Upgrade
        else None
    | None => None
    end in
  match explicit with
  | Some ct => ct
  | None =>
      match rq_version r with
      | HTTP_09 | HTTP_10 => Close
      | _ => KeepAlive
      end
  end.

(** Modelled from the spec: [ParseError] and the payload decoders
    ([LengthStream(N)], [ChunkedStream], [UntilClose]/[RawStream]). *)
Inductive ParseError : Type :=
| PE_Method | PE_Uri | PE_Version | PE_Header | PE_TooLarge.

Inductive PayloadDecoder : Type :=
| PD_Length (remaining : Z)
| PD_Chunked (finished : bool)
| PD_Eof.

Inductive PayloadItem : Type :=
| PI_Chunk (data : list Byte.byte)
| PI_Eof.

(** The head and what follows the first [CRLF CRLF]. *)
Fixpoint split_head (l : list Byte.byte) : option (list Byte.byte * list Byte.byte) :=
  match l with
  | Byte.x0d :: Byte.x0a :: Byte.x0d :: Byte.x0a :: rest => Some ([], rest)
  | x :: rest => option_map (fun p => (x :: fst p, snd p)) (split_head rest)
  | [] => None
  end.

(** The line and what follows the first [CRLF]. *)
Fixpoint split_crlf (l : list Byte.byte) : option (list Byte.byte * list Byte.byte) :=
  match l with
  | Byte.x0d :: Byte.x0a :: rest => Some ([], rest)
  | x :: rest => option_map (fun p => (x :: fst p, snd p)) (split_crlf rest)
  | [] => None
  end.

Fixpoint lines_acc (cur : list Byte.byte) (l : list Byte.byte) : list (list Byte.byte) :=
  match l with
  | Byte.x0d :: Byte.x0a :: rest => rev cur :: lines_acc [] rest
  | x :: rest => lines_acc (x :: cur) rest
  | [] => [rev cur]
  end.

Fixpoint split_on_acc (sep : Byte.byte) (cur : list Byte.byte) (l : list Byte.byte)
  : list (list Byte.byte) :=
  match l with
  | x :: rest =>
      if Byte.eqb x sep then rev cur :: split_on_acc sep [] rest
      else split_on_acc sep (x :: cur) rest
  | [] => [rev cur]
  end.

Fixpoint split_first (sep : Byte.byte) (l : list Byte.byte)
  : option (list Byte.byte * list Byte.byte) :=
  match l with
  | x :: rest =>
      if Byte.eqb x sep then Some ([], rest)
      else option_map (fun p => (x :: fst p, snd p)) (split_first sep rest)
  | [] => None
  end.

Fixpoint trim_left (l : list Byte.byte) : list Byte.byte :=
  match l with
  | Byte.x20 :: rest | Byte.x09 :: rest => trim_left rest
  | _ => l
  end.

Definition trim (l : list Byte.byte) : list Byte.byte := rev (trim_left (rev (trim_left l))).

Definition digit_value (b : Byte.byte) : option Z :=
  let n := Z.of_nat (Byte.to_nat b) in
  if (48 <=? n) && (n <=? 57) then Some (n - 48) else None.

Definition hex_value (b : Byte.byte) : option Z :=
  let n := Z.of_nat (Byte.to_nat b) in
  if (48 <=? n) && (n <=? 57) then Some (n - 48)
  else if (97 <=? n) && (n <=? 102) then Some (n - 87)
  else if (65 <=? n) && (n <=? 70) then Some (n - 55)
  else None.

(** A non-empty run of digits in the given base. *)
Definition parse_number (base : Z) (digit : Byte.byte -> option Z) (l : list Byte.byte)
  : option Z :=
  match l with
  | [] => None
  | _ =>
      fold_left (fun acc b =>
        match acc, digit b with
        | Some a, Some d => Some (a * base + d)
        | _, _ => None
        end) l (Some 0)
  end.

(** Method tokens; unknown ones are extension tokens. *)
Definition parse_method (tok : list Byte.byte) : result Method ParseError :=
  if bytes_eqb tok [] then Err PE_Method
  else if bytes_eqb tok (bs "GET") then Ok GET
  else if bytes_eqb tok (bs "POST") then Ok POST
  else if bytes_eqb tok (bs "PUT") then Ok PUT
  else if bytes_eqb tok (bs "DELETE") then Ok DELETE
  else if bytes_eqb tok (bs "HEAD") then Ok HEAD
  else if bytes_eqb tok (bs "OPTIONS") then Ok OPTIONS
  else if bytes_eqb tok (bs "TRACE") then Ok TRACE
  else if bytes_eqb tok (bs "CONNECT") then Ok CONNECT
  else if bytes_eqb tok (bs "PATCH") then Ok PATCH
  else Ok (Extension (string_of_list_byte tok)).

(** Versions below 1.0 or above 1.1 fail with [Version]. *)
Definition parse_version (tok : list Byte.byte) : result Version ParseError :=
  if bytes_eqb tok (bs "HTTP/1.1") then Ok HTTP_11
  else if bytes_eqb tok (bs "HTTP/1.0") then Ok HTTP_10
  else Err PE_Version.

Fixpoint parse_headers (ls : list (list Byte.byte))
  : result (list (list Byte.byte * list Byte.byte)) ParseError :=
  match ls with
  | [] => Ok []
  | l :: rest =>
      match split_first Byte.x3a l, parse_headers rest with
      | Some (name, value), Ok hs =>
          if bytes_eqb name [] then Err PE_Header
          else Ok ((map lower name, trim value) :: hs)
      | None, _ => Err PE_Header
      | _, Err e => Err e
      end
  end.

Definition body_allowing (m : Method) : bool :=
  match m with POST | PUT | PATCH | Extension _ => true | _ => false end.

(** The payload framing selection of section 4.1. *)
Definition framing (r : Request) : result (PayloadType PayloadDecoder) ParseError :=
  let cls := map snd (filter (fun h => bytes_eqb (fst h) (bs "content-length"))
                        (rq_headers r)) in
  match header r "transfer-encoding", cls with
  | Some _, _ :: _ => Err PE_Header
  | Some te, [] =>
      if bytes_eqb (map lower te) (bs "chunked") then Ok (PT_Payload (PD_Chunked false))
      else Err PE_Header
  | None, cl :: others =>
      if forallb (bytes_eqb cl) others then
        match parse_number 10 digit_value cl with
        | Some n => if 0 <? n then Ok (PT_Payload (PD_Length n)) else Ok PT_None
        | None => Err PE_Header
        end
      else Err PE_Header
  | None, [] =>
      if ctype_eqb (connection_type r) Upgrade || method_eqb (rq_method r) CONNECT then
        Ok (PT_Upgrade PD_Eof)
      else if (match rq_version r with HTTP_10 => true | _ => false end)
              && body_allowing (rq_method r) then Ok (PT_Stream PD_Eof)
      else Ok PT_None
  end.

(** Modelled from the spec: [MessageDecoder<Request>::decode] (it keeps no
    state between heads: [unit]).  [None] means that no [CRLF CRLF] has
    arrived yet; on success the head is consumed from the buffer. *)
Definition decoder_decode (d : unit) (src : list Byte.byte)
  : unit * list Byte.byte * result (option (Request * PayloadType PayloadDecoder)) ParseError :=
  match split_head src with
  | None => (d, src, Ok None)
  | Some (head, rest) =>
      match lines_acc [] head with
      | [] => (d, src, Err PE_Method)
      | reqline :: hlines =>
          match split_on_acc Byte.x20 [] reqline with
          | [m; path; v] =>
              match parse_method m, parse_version v, parse_headers hlines with
              | Err e, _, _ => (d, rest, Err e)
              | _, Err e, _ => (d, rest, Err e)
              | _, _, Err e => (d, rest, Err e)
              | Ok m, Ok v, Ok hs =>
                  if bytes_eqb path [] then (d, rest, Err PE_Uri)
                  else
                    let r := mkRequest m path v hs in
                    match framing r with
                    | Ok pl => (d, rest, Ok (Some (r, pl)))
                    | Err e => (d, rest, Err e)
                    end
              end
          | _ => (d, rest, Err PE_Method)
          end
      end
  end.

(** Skips trailer lines up to the empty line; [None] when incomplete. *)
Fixpoint skip_trailers (fuel : nat) (l : list Byte.byte) : option (list Byte.byte) :=
  match fuel with
  | O => None
  | Datatypes.S fuel =>
      match split_crlf l with
      | None => None
      | Some ([], rest) => Some rest
      | Some (_, rest) => skip_trailers fuel rest
      end
  end.

(** Modelled from the spec: the payload decoder of a [PayloadType], which
    "consumes subsequent bytes from the same buffer as they arrive"; a
    chunk is [<hex-len>CRLF<bytes>CRLF], the chunk of size 0 plus optional
    trailers ends the body.  [None]: more bytes are needed. *)
Definition payload_decode (pd : PayloadDecoder) (src : list Byte.byte)
  : PayloadDecoder * list Byte.byte * result (option PayloadItem) ParseError :=
  match pd with
  | PD_Length n =>
      if n <=? 0 then (pd, src, Ok (Some PI_Eof))
      else match src with
           | [] => (pd, src, Ok None)
           | _ =>
               let k := Z.min n (Z.of_nat (List.length src)) in
               (PD_Length (n - k), skipn (Z.to_nat k) src,
                Ok (Some (PI_Chunk (firstn (Z.to_nat k) src))))
           end
  | PD_Chunked true => (pd, src, Ok (Some PI_Eof))
  | PD_Chunked false =>
      match split_crlf src with
      | None => (pd, src, Ok None)
      | Some (line, rest) =>
          match parse_number 16 hex_value line with
          | None => (pd, src, Err PE_Header)
          | Some 0 =>
              match skip_trailers (List.length rest) rest with
              | None => (pd, src, Ok None)
              | Some rest' => (PD_Chunked true, rest', Ok (Some PI_Eof))
              end
          | Some n =>
              if Z.of_nat (List.length rest) <? n + 2 then (pd, src, Ok None)
              else
                let data := firstn (Z.to_nat n) rest in
                match skipn (Z.to_nat n) rest with
                | Byte.x0d :: Byte.x0a :: rest' => (pd, rest', Ok (Some (PI_Chunk data)))
                | _ => (pd, src, Err PE_Header)
                end
          end
      end
  | PD_Eof =>
      match src with
      | [] => (pd, src, Ok None)
      | _ => (pd, [], Ok (Some (PI_Chunk src)))
      end
  end.

(** The codec of the scenario: the generic [H1.Codec] over these pieces
    (the scenario only decodes; the encoder state is [unit]). *)
Definition Codec := H1.Codec ServiceConfig unit unit.

Definition codec_new (cfg : ServiceConfig) : Codec :=
  H1.new keep_alive_enabled tt tt cfg.

Definition codec_decode (c : Codec) (src : list Byte.byte) :=
  H1.decode rq_method rq_version connection_type decoder_decode c src.

(** The configuration [HttpService::new] builds:
    [ServiceConfig::new(KeepAlive::Timeout(5), 5000, 0, false, None)]. *)
Definition http_service_config : ServiceConfig := mkServiceConfig (KA_Timeout 5) 5000 0.

(** An encoder that writes nothing and never fails, to run the codec's
    step relation on the wire decoder (the encoding theorems hold for every
    encoder). *)
Definition encoder_encode_nothing (e : unit) (dst : list Byte.byte) (_ : Response)
  (_ _ : bool) (_ : Version) (_ : BodySize) (_ : ConnectionType) (_ : ServiceConfig)
  : unit * list Byte.byte * result unit unit := (e, dst, Ok tt).
Definition encoder_encode_chunk_nothing (e : unit) (_ dst : list Byte.byte)
  : unit * list Byte.byte * result unit unit := (e, dst, Ok tt).
Definition encoder_encode_eof_nothing (e : unit) (dst : list Byte.byte)
  : unit * list Byte.byte * result unit unit := (e, dst, Ok tt).

Definition codec_reachable (cfg : ServiceConfig) (c : Codec) : Prop :=
  H1.reachable keep_alive_enabled rq_method rq_version connection_type tt decoder_decode
    tt encoder_encode_nothing encoder_encode_chunk_nothing encoder_encode_eof_nothing cfg c.

(** The bytes of scenario S1 (the test
    [test_http_request_chunked_payload_and_next_message]). *)
Definition crlf : list Byte.byte := [Byte.x0d; Byte.x0a].

Definition s1_first : list Byte.byte :=
  bs "GET /test HTTP/1.1" ++ crlf ++ bs "transfer-encoding: chunked" ++ crlf ++ crlf.

Definition s1_next_head : list Byte.byte :=
  bs "POST /test2 HTTP/1.1" ++ crlf ++ bs "transfer-encoding: chunked" ++ crlf ++ crlf.

Definition s1_appended : list Byte.byte :=
  bs "4" ++ crlf ++ bs "data" ++ crlf ++ bs "4" ++ crlf ++ bs "line" ++ crlf
  ++ bs "0" ++ crlf ++ crlf ++ s1_next_head.

Definition chunked_headers : list (list Byte.byte * list Byte.byte) :=
  [(bs "transfer-encoding", bs "chunked")].

(** Two requests of the pipelined counterexample to the stickiness of
    [STREAM]: an HTTP/1.0 POST delimited by close, then a bodyless GET. *)
Definition post_10_head : list Byte.byte := bs "POST / HTTP/1.0" ++ crlf ++ crlf.
Definition get_11_head : list Byte.byte := bs "GET / HTTP/1.1" ++ crlf ++ crlf.

End Wire.

(** * Theorems *)

(** ** The flag bits *)
Module FlagFacts.

Lemma land_pow2 f k : 0 <= k ->
  Z.land f (2 ^ k) = if Z.testbit f k then 2 ^ k else 0.
Proof.
  intros Hk. apply Z.bits_inj'. intros n Hn.
  rewrite Z.land_spec, Z.pow2_bits_eqb by exact Hk.
  destruct (Z.testbit f k) eqn:E.
  - rewrite Z.pow2_bits_eqb by exact Hk.
    destruct (Z.eqb_spec k n) as [<-|]; [rewrite E|rewrite andb_false_r]; reflexivity.
  - rewrite Z.bits_0.
    destruct (Z.eqb_spec k n) as [<-|]; [rewrite E|rewrite andb_false_r]; reflexivity.
Qed.

Lemma contains_pow2 f k : 0 <= k -> contains f (2 ^ k) = Z.testbit f k.
Proof.
  intros Hk. unfold contains. rewrite land_pow2 by exact Hk.
  destruct (Z.testbit f k).
  - apply Z.eqb_refl.
  - apply Z.eqb_neq. pose proof (Z.pow_pos_nonneg 2 k ltac:(lia) Hk). lia.
Qed.

Lemma contains_head f : contains f HEAD_FLAG = Z.testbit f 0.
Proof. exact (contains_pow2 f 0 ltac:(lia)). Qed.
Lemma contains_keepalive f : contains f KEEPALIVE_ENABLED = Z.testbit f 1.
Proof. exact (contains_pow2 f 1 ltac:(lia)). Qed.
Lemma contains_stream f : contains f STREAM = Z.testbit f 2.
Proof. exact (contains_pow2 f 2 ltac:(lia)). Qed.

Lemma testbit_insert f b k : Z.testbit (insert f b) k = Z.testbit f k || Z.testbit b k.
Proof. apply Z.lor_spec. Qed.

Lemma testbit_remove f b k : 0 <= k ->
  Z.testbit (remove f b) k = Z.testbit f k && negb (Z.testbit b k).
Proof. intros Hk. unfold remove. rewrite Z.land_spec, Z.lnot_spec by exact Hk. reflexivity. Qed.

Lemma testbit_set f b v k : 0 <= k ->
  Z.testbit (set f b v) k = if v then Z.testbit f k || Z.testbit b k
                            else Z.testbit f k && negb (Z.testbit b k).
Proof.
  intros Hk. unfold set. destruct v; [apply testbit_insert | apply testbit_remove; exact Hk].
Qed.

(* Each flag is one bit, distinct from the others. *)
Ltac flag_bits :=
  repeat rewrite ?contains_head, ?contains_keepalive, ?contains_stream,
    ?testbit_set, ?testbit_insert by lia;
  unfold HEAD_FLAG, KEEPALIVE_ENABLED, STREAM; simpl Z.testbit;
  rewrite ?orb_false_r, ?orb_true_r, ?andb_true_r, ?andb_false_r.

End FlagFacts.

(** ** The codec *)
Module CodecFacts.
Import FlagFacts.

Section Facts.
Variable ServiceConfig : Type.
Variable keep_alive_enabled : ServiceConfig -> bool.
Variable Request : Type.
Variable req_method : Request -> Method.
Variable req_version : Request -> Version.
Variable req_connection_type : Request -> ConnectionType.
Variable ParseError IoError : Type.
Variable PayloadDecoder : Type.
Variable MessageDecoder : Type.
Variable decoder_default : MessageDecoder.
Variable decoder_decode : MessageDecoder -> BytesMut ->
  MessageDecoder * BytesMut
  * result (option (Request * PayloadType PayloadDecoder)) ParseError.
Variable MessageEncoder : Type.
Variable encoder_default : MessageEncoder.
Variable encoder_encode : MessageEncoder -> BytesMut -> Response -> bool -> bool
  -> Version -> BodySize -> ConnectionType -> ServiceConfig
  -> MessageEncoder * BytesMut * result unit IoError.
Variable encoder_encode_chunk : MessageEncoder -> BytesMut -> BytesMut ->
  MessageEncoder * BytesMut * result unit IoError.
Variable encoder_encode_eof : MessageEncoder -> BytesMut ->
  MessageEncoder * BytesMut * result unit IoError.

Local Abbreviation Codec := (H1.Codec ServiceConfig MessageDecoder MessageEncoder).
Local Abbreviation new := (H1.new keep_alive_enabled decoder_default encoder_default).
Local Abbreviation decode :=
  (H1.decode req_method req_version req_connection_type decoder_decode).
Local Abbreviation encode :=
  (H1.encode encoder_encode encoder_encode_chunk encoder_encode_eof).
Local Abbreviation reachable :=
  (H1.reachable keep_alive_enabled req_method req_version req_connection_type
     decoder_default decoder_decode encoder_default
     encoder_encode encoder_encode_chunk encoder_encode_eof).

(** What a successful decode leaves in the codec. *)
Lemma decode_ok (c c' : Codec) src src' req pl :
  decode c src = (c', src', Ok (Some (req, pl))) ->
  exists d,
    fst (fst (decoder_decode (H1.decoder c) src)) = d /\
    let fl := set (H1.flags c) HEAD_FLAG (method_eqb (req_method req) HEAD) in
    let ct := req_connection_type req in
    c' = H1.mkCodec (H1.config c) d (req_version req)
           (if ctype_eqb ct KeepAlive && negb (contains fl KEEPALIVE_ENABLED)
            then Close else ct)
           (if H1.is_stream pl then insert fl STREAM else fl) (H1.encoder c).
Proof.
  unfold H1.decode. destruct (decoder_decode (H1.decoder c) src) as [[d s] r].
  destruct r as [[[rq p]|]|e]; simpl; intros H; inversion H; subst.
  exists d. split; reflexivity.
Qed.

(** A decode that does not produce a head leaves everything but the
    decoder and the buffer as it was. *)
Lemma decode_not_ok (c : Codec) src :
  match decoder_decode (H1.decoder c) src with
  | (d, s, Ok (Some _)) => True
  | (d, s, r) =>
      decode c src =
        (H1.mkCodec (H1.config c) d (H1.version c) (H1.ctype c) (H1.flags c) (H1.encoder c),
         s, r)
  end.
Proof.
  unfold H1.decode. destruct (decoder_decode (H1.decoder c) src) as [[d s] r].
  destruct r as [[[rq p]|]|e]; reflexivity.
Qed.

Lemma reconcile_keepalive cur res :
  H1.reconcile_ctype cur res = KeepAlive -> cur = KeepAlive.
Proof.
  unfold H1.reconcile_ctype. destruct (rh_ctype res) as [[]|]; simpl; congruence.
Qed.

Lemma encode_shape (c : Codec) m dst :
  exists ct e, fst (fst (encode c m dst)) =
    H1.mkCodec (H1.config c) (H1.decoder c) (H1.version c) ct (H1.flags c) e
    /\ (ct = KeepAlive -> H1.ctype c = KeepAlive).
Proof.
  unfold H1.encode. destruct m as [[res len]|[bytes|]].
  - destruct (encoder_encode _ _ _ _ _ _ _ _ _) as [[e d] r].
    exists (H1.reconcile_ctype (H1.ctype c) (set_version res (H1.version c))), e.
    split; [reflexivity | apply reconcile_keepalive].
  - destruct (encoder_encode_chunk _ _ _) as [[e d] r].
    exists (H1.ctype c), e. split; [reflexivity | auto].
  - destruct (encoder_encode_eof _ _) as [[e d] r].
    exists (H1.ctype c), e. split; [reflexivity | auto].
Qed.

Lemma new_gated cfg : H1.keepalive_gated (new cfg).
Proof. unfold H1.keepalive_gated; simpl; discriminate. Qed.

Lemma step_gated (c c' : Codec) :
  H1.step req_method req_version req_connection_type decoder_decode
    encoder_encode encoder_encode_chunk encoder_encode_eof c c' ->
  H1.keepalive_gated c -> H1.keepalive_gated c'.
Proof.
  intros Hs Hg. destruct Hs as [c src c' src' r Hd | c m dst c' dst' r He].
  - unfold H1.decode in Hd.
    destruct (decoder_decode (H1.decoder c) src) as [[d s] [[[rq p]|]|e]];
      inversion Hd; subst; unfold H1.keepalive_gated in *; simpl; [| exact Hg | exact Hg].
    destruct (ctype_eqb (req_connection_type rq) KeepAlive) eqn:Ek;
    destruct (contains (set (H1.flags c) HEAD_FLAG (method_eqb (req_method rq) HEAD))
                KEEPALIVE_ENABLED) eqn:Ec; simpl; try discriminate;
    intros Hct; destruct (H1.is_stream p); try exact Ec;
      try (revert Ec; flag_bits; auto; fail);
      destruct (req_connection_type rq); simpl in Ek; discriminate.
  - destruct (encode_shape c m dst) as [ct [e [Hc Himp]]].
    rewrite He in Hc; simpl in Hc; subst c'.
    unfold H1.keepalive_gated in *; simpl. intros Hk. apply Hg, Himp, Hk.
Qed.

(** C1: in every codec state reachable from [Codec::new] by decodes and
    encodes, a [KeepAlive] connection type implies that the
    KEEPALIVE_ENABLED flag is set; so when [keepalive_enabled()] is false,
    [keepalive()] is false. *)
Theorem keepalive_gating cfg (c : Codec) :
  reachable cfg c ->
  (H1.ctype c = KeepAlive -> contains (H1.flags c) KEEPALIVE_ENABLED = true)
  /\ (H1.keepalive_enabled c = false -> H1.keepalive c = false).
Proof.
  intros Hr.
  assert (Hg : H1.keepalive_gated c).
  { induction Hr as [|c c' _ IH Hs]; [apply new_gated | exact (step_gated c c' Hs IH)]. }
  split; [exact Hg |].
  unfold H1.keepalive_enabled, H1.keepalive. intros Hoff.
  destruct (H1.ctype c) eqn:E; try reflexivity.
  rewrite (Hg E) in Hoff. discriminate.
Qed.


(** C2 (amended): a successful decode sets HEAD exactly when the decoded
    method is HEAD, and only ever inserts STREAM: afterwards STREAM is set
    iff it was set before or the decoded payload is [Stream].  Encodes and
    decodes that yield no head leave both flags unchanged. *)
Theorem decode_head_stream_flags :
  (forall (c c' : Codec) src src' req pl,
     decode c src = (c', src', Ok (Some (req, pl))) ->
     contains (H1.flags c') HEAD_FLAG = method_eqb (req_method req) HEAD
     /\ contains (H1.flags c') STREAM = contains (H1.flags c) STREAM || H1.is_stream pl)
  /\ (forall (c c' : Codec) src src' r,
        decode c src = (c', src', r) ->
        (forall v, r <> Ok (Some v)) -> H1.flags c' = H1.flags c)
  /\ (forall (c : Codec) m dst, H1.flags (fst (fst (encode c m dst))) = H1.flags c).
Proof.
  split; [| split].
  - intros c c' src src' req pl Hd.
    apply decode_ok in Hd. destruct Hd as [d [_ ->]]; simpl.
    destruct (H1.is_stream pl), (method_eqb (req_method req) HEAD); flag_bits; auto.
  - intros c c' src src' r Hd Hr. unfold H1.decode in Hd.
    destruct (decoder_decode (H1.decoder c) src) as [[d s] [[[rq p]|]|e]];
      inversion Hd; subst; simpl; [| reflexivity | reflexivity].
    exfalso. exact (Hr _ eq_refl).
  - intros c m dst. destruct (encode_shape c m dst) as [ct [e [-> _]]]. reflexivity.
Qed.

(** C3: encoding [Message::Item((res, length))] hands the encoder the
    response with its version rewritten to the codec's version, and the
    connection type that is the codec's current one when the response has
    no explicit type or asks for [KeepAlive], and the response's explicit
    [Close] or [Upgrade] otherwise; the codec keeps that connection type. *)
Theorem encode_item_version_ctype (c : Codec) res length dst :
  let ct := match rh_ctype res with
            | None | Some KeepAlive => H1.ctype c
            | Some Close => Close
            | Some Upgrade => Upgrade
            end in
  let res' := mkResponseHead (rh_status res) (H1.version c) (rh_ctype res) in
  let '(e, dst', r) :=
    encoder_encode (H1.encoder c) dst res' (contains (H1.flags c) HEAD_FLAG)
      (contains (H1.flags c) STREAM) (H1.version c) length ct (H1.config c) in
  encode c (Item (res, length)) dst
  = (H1.mkCodec (H1.config c) (H1.decoder c) (H1.version c) ct (H1.flags c) e, dst', r)
  /\ rh_version res' = H1.version c.
Proof.
  unfold H1.encode, H1.reconcile_ctype, set_version; simpl.
  destruct (rh_ctype res) as [[]|]; simpl;
    match goal with |- context [encoder_encode ?a ?b ?c ?d ?e ?f ?g ?h ?i] =>
      destruct (encoder_encode a b c d e f g h i) as [[e' d'] r] end;
    split; reflexivity.
Qed.

(** C5: an encode (of any message) leaves the decoder untouched, and a
    decode leaves the encoder untouched (the halves share only the flags);
    neither changes the configuration. *)
Theorem halves_separated :
  (forall (c : Codec) m dst,
     H1.decoder (fst (fst (encode c m dst))) = H1.decoder c
     /\ H1.config (fst (fst (encode c m dst))) = H1.config c)
  /\ (forall (c : Codec) src,
        H1.encoder (fst (fst (decode c src))) = H1.encoder c
        /\ H1.config (fst (fst (decode c src))) = H1.config c).
Proof.
  split.
  - intros c m dst. destruct (encode_shape c m dst) as [ct [e [-> _]]]. split; reflexivity.
  - intros c src. unfold H1.decode.
    destruct (decoder_decode (H1.decoder c) src) as [[d s] [[[rq p]|]|e]];
      split; reflexivity.
Qed.

(** C9: a fresh codec ([Codec::new], and [Codec::default] which is
    [Codec::new(ServiceConfig::default())]) is neither keep-alive nor
    upgrade (its connection type is [Close]), speaks HTTP/1.1, and has
    [keepalive_enabled()] equal to the configuration's
    [keep_alive_enabled()]. *)
Theorem new_codec_state cfg :
  H1.keepalive (new cfg) = false /\ H1.upgrade (new cfg) = false
  /\ H1.ctype (new cfg) = Close /\ H1.version (new cfg) = HTTP_11
  /\ H1.keepalive_enabled (new cfg) = keep_alive_enabled cfg.
Proof.
  unfold H1.new, H1.keepalive, H1.upgrade, H1.keepalive_enabled; simpl.
  destruct (keep_alive_enabled cfg); repeat split.
Qed.

(** C10: when the inner decoder needs more bytes, [decode] returns
    [Ok(None)]; when it fails, [decode] returns the same error; in both
    cases the codec's version, connection type and flags are unchanged. *)
Theorem decode_frame_on_no_head (c : Codec) src :
  (forall d s, decoder_decode (H1.decoder c) src = (d, s, Ok None) ->
     exists c', decode c src = (c', s, Ok None)
       /\ H1.version c' = H1.version c /\ H1.ctype c' = H1.ctype c
       /\ H1.flags c' = H1.flags c)
  /\ (forall d s e, decoder_decode (H1.decoder c) src = (d, s, Err e) ->
     exists c', decode c src = (c', s, Err e)
       /\ H1.version c' = H1.version c /\ H1.ctype c' = H1.ctype c
       /\ H1.flags c' = H1.flags c).
Proof.
  split; intros * Hd; unfold H1.decode; rewrite Hd;
    eexists; repeat split; reflexivity.
Qed.

(** After a successful decode the connection type is the request's, except
    that a keep-alive request becomes [Close] when keep-alive is disabled on
    the codec; so [upgrade()] holds exactly for an upgrade request and
    [keepalive()] exactly for a keep-alive request with keep-alive enabled.
    The version is the request's and [keepalive_enabled()] is unchanged. *)
Theorem decode_connection_type (c : Codec) src :
  match decode c src with
  | (c', _, Ok (Some (req, _))) =>
      H1.ctype c' = match req_connection_type req with
                    | KeepAlive => if H1.keepalive_enabled c then KeepAlive else Close
                    | ct => ct
                    end
      /\ (H1.upgrade c' = true <-> req_connection_type req = Upgrade)
      /\ (H1.keepalive c' = true <->
            req_connection_type req = KeepAlive /\ H1.keepalive_enabled c = true)
      /\ H1.version c' = req_version req
      /\ H1.keepalive_enabled c' = H1.keepalive_enabled c
  | _ => True
  end.
Proof.
  unfold H1.decode, H1.upgrade, H1.keepalive, H1.keepalive_enabled.
  destruct (decoder_decode (H1.decoder c) src) as [[d s] [[[rq p]|]|e]]; simpl; try exact I.
  assert (Hka : contains (set (H1.flags c) HEAD_FLAG (method_eqb (req_method rq) HEAD))
                  KEEPALIVE_ENABLED = contains (H1.flags c) KEEPALIVE_ENABLED)
    by (destruct (method_eqb (req_method rq) HEAD); flag_bits; reflexivity).
  assert (Hka' : contains (if H1.is_stream p
                           then insert (set (H1.flags c) HEAD_FLAG
                                          (method_eqb (req_method rq) HEAD)) STREAM
                           else set (H1.flags c) HEAD_FLAG (method_eqb (req_method rq) HEAD))
                   KEEPALIVE_ENABLED = contains (H1.flags c) KEEPALIVE_ENABLED)
    by (destruct (H1.is_stream p), (method_eqb (req_method rq) HEAD); flag_bits; reflexivity).
  rewrite Hka, Hka'.
  destruct (req_connection_type rq), (contains (H1.flags c) KEEPALIVE_ENABLED); simpl;
    repeat split; try reflexivity; try discriminate; try tauto;
    intros [H _]; discriminate.
Qed.

(** In every state reachable from [Codec::new(cfg)] the configuration is
    still [cfg] and [keepalive_enabled()] is still the configuration's
    [keep_alive_enabled()]: no decode or encode changes either. *)
Theorem reachable_config cfg (c : Codec) :
  reachable cfg c ->
  H1.config c = cfg /\ H1.keepalive_enabled c = keep_alive_enabled cfg.
Proof.
  intros Hr. induction Hr as [|c c' _ [IHc IHk] Hs].
  - unfold H1.new, H1.keepalive_enabled; simpl. split; [reflexivity |].
    destruct (keep_alive_enabled cfg); reflexivity.
  - unfold H1.keepalive_enabled in *.
    destruct Hs as [c src c' src' r Hd | c m dst c' dst' r He].
    + unfold H1.decode in Hd.
      destruct (decoder_decode (H1.decoder c) src) as [[d s] [[[rq p]|]|e]];
        injection Hd as <- _ _; simpl; [| split; assumption | split; assumption].
      split; [exact IHc |]. rewrite <- IHk.
      destruct (H1.is_stream p), (method_eqb (req_method rq) HEAD); flag_bits; reflexivity.
    + destruct (encode_shape c m dst) as [ct [e [Hc _]]].
      rewrite He in Hc; simpl in Hc; subst c'; simpl. split; assumption.
Qed.

(** Encoding a body, any sequence of [Message::Chunk] items (data chunks and
    the EOF marker), leaves the connection type, the version, the flags, the
    decoder and the configuration of the codec as they were; and each chunk's
    output and result are those of the encoder's [encode_chunk] (for data)
    or [encode_eof] (for the EOF marker). *)
Theorem encode_body_keeps_state (c : Codec) (chunks : list (option BytesMut)) dst :
  let c' := fst (fold_left (fun '(c, d) ch =>
                              let '(c', d', _) := encode c (Chunk ch) d in (c', d'))
                           chunks (c, dst)) in
  H1.ctype c' = H1.ctype c /\ H1.version c' = H1.version c /\ H1.flags c' = H1.flags c
  /\ H1.decoder c' = H1.decoder c /\ H1.config c' = H1.config c
  /\ (forall bytes, snd (encode c (Chunk (Some bytes)) dst)
                    = snd (encoder_encode_chunk (H1.encoder c) bytes dst)
                    /\ snd (fst (encode c (Chunk (Some bytes)) dst))
                       = snd (fst (encoder_encode_chunk (H1.encoder c) bytes dst)))
  /\ snd (encode c (Chunk None) dst) = snd (encoder_encode_eof (H1.encoder c) dst)
  /\ snd (fst (encode c (Chunk None) dst)) = snd (fst (encoder_encode_eof (H1.encoder c) dst)).
Proof.
  intros c'.
  assert (Hfold : forall chunks (c0 : Codec) d0,
    let c1 := fst (fold_left (fun '(c, d) ch =>
                                let '(c', d', _) := encode c (Chunk ch) d in (c', d'))
                             chunks (c0, d0)) in
    H1.ctype c1 = H1.ctype c0 /\ H1.version c1 = H1.version c0
    /\ H1.flags c1 = H1.flags c0 /\ H1.decoder c1 = H1.decoder c0
    /\ H1.config c1 = H1.config c0).
  { induction chunks0 as [|ch rest IH]; intros c0 d0; simpl; [repeat split |].
    destruct ch as [bytes|];
      [destruct (encoder_encode_chunk (H1.encoder c0) bytes d0) as [[e d1] r]
      | destruct (encoder_encode_eof (H1.encoder c0) d0) as [[e d1] r]];
      destruct (IH (H1.mkCodec (H1.config c0) (H1.decoder c0) (H1.version c0)
                   (H1.ctype c0) (H1.flags c0) e) d1) as [H1' [H2 [H3 [H4 H5]]]];
      simpl in *; repeat split; assumption. }
  destruct (Hfold chunks c dst) as [H1' [H2 [H3 [H4 H5]]]].
  split; [exact H1' |]. split; [exact H2 |]. split; [exact H3 |].
  split; [exact H4 |]. split; [exact H5 |]. unfold H1.encode. split.
  - intros bytes. destruct (encoder_encode_chunk (H1.encoder c) bytes dst) as [[e d1] r].
    split; reflexivity.
  - destruct (encoder_encode_eof (H1.encoder c) dst) as [[e d1] r]. split; reflexivity.
Qed.

(** Decode then encode: after a successful decode of a request, encoding a
    response head hands the encoder the request's version (in the response
    and as the version argument), [head] exactly when the request's method
    is HEAD, and [stream] exactly when STREAM was set before or the decoded
    payload is [Stream]; the encode's output and result are the encoder's. *)
Theorem decode_then_encode (c : Codec) src res length dst :
  match decode c src with
  | (c1, _, Ok (Some (req, pl))) =>
      let E := encoder_encode (H1.encoder c) dst (set_version res (req_version req))
                 (method_eqb (req_method req) HEAD)
                 (contains (H1.flags c) STREAM || H1.is_stream pl)
                 (req_version req) length (H1.reconcile_ctype (H1.ctype c1) res)
                 (H1.config c) in
      snd (fst (encode c1 (Item (res, length)) dst)) = snd (fst E)
      /\ snd (encode c1 (Item (res, length)) dst) = snd E
      /\ H1.encoder (fst (fst (encode c1 (Item (res, length)) dst))) = fst (fst E)
  | _ => True
  end.
Proof.
  unfold H1.decode.
  destruct (decoder_decode (H1.decoder c) src) as [[d s] [[[rq p]|]|e]]; simpl; try exact I.
  assert (Hh : contains (if H1.is_stream p
                         then insert (set (H1.flags c) HEAD_FLAG
                                        (method_eqb (req_method rq) HEAD)) STREAM
                         else set (H1.flags c) HEAD_FLAG (method_eqb (req_method rq) HEAD))
                 HEAD_FLAG = method_eqb (req_method rq) HEAD)
    by (destruct (H1.is_stream p), (method_eqb (req_method rq) HEAD); flag_bits; reflexivity).
  assert (Hs : contains (if H1.is_stream p
                         then insert (set (H1.flags c) HEAD_FLAG
                                        (method_eqb (req_method rq) HEAD)) STREAM
                         else set (H1.flags c) HEAD_FLAG (method_eqb (req_method rq) HEAD))
                 STREAM = contains (H1.flags c) STREAM || H1.is_stream p)
    by (destruct (H1.is_stream p), (method_eqb (req_method rq) HEAD); flag_bits; reflexivity).
  unfold H1.encode; simpl. rewrite Hh, Hs.
  assert (Hr : forall cur v, H1.reconcile_ctype cur (set_version res v)
                             = H1.reconcile_ctype cur res) by reflexivity.
  rewrite Hr.
  match goal with |- context [encoder_encode ?a ?b ?c ?d ?e ?f ?g ?h ?i] =>
    destruct (encoder_encode a b c d e f g h i) as [[e' d'] r] end.
  repeat split.
Qed.

End Facts.
End CodecFacts.

(** ** The connection service *)
Module ServiceFacts.
Import HttpService.

(** C6: [poll_ready] is [Ready(Ok(()))] exactly when the expect service,
    the main service and, when configured, the upgrade service all report
    ready; when none of them fails and one of them is pending it is
    [Pending]; without an upgrade service only expect and main are polled. *)
Theorem poll_ready_combined (S X U Error : Type) ps px pu (fl : HttpFlow S X U) :
  (snd (poll_ready (Error := Error) ps px pu fl) = Ready (Ok tt) <->
     px (expect fl) = Ready (Ok tt) /\ ps (service fl) = Ready (Ok tt)
     /\ (forall u, upgrade fl = Some u -> pu u = Ready (Ok tt)))
  /\ ((forall e, px (expect fl) <> Ready (Err e) /\ ps (service fl) <> Ready (Err e)
                 /\ (forall u, upgrade fl = Some u -> pu u <> Ready (Err e))) ->
      (px (expect fl) = Pending \/ ps (service fl) = Pending
       \/ exists u, upgrade fl = Some u /\ pu u = Pending) ->
      snd (poll_ready ps px pu fl) = Pending)
  /\ (upgrade fl = None -> ~ In SubUpgrade (fst (poll_ready ps px pu fl))).
Proof.
  unfold poll_ready, ready_of.
  destruct (px (expect fl)) as [[[]|ex]|] eqn:Ex;
  destruct (ps (service fl)) as [[[]|es]|] eqn:Es;
  destruct (upgrade fl) as [u0|] eqn:Eu;
  try destruct (pu u0) as [[[]|eu]|] eqn:Epu; simpl;
  (split; [split | split]);
  try (intros; congruence);
  try (intros [? [? Hu]]; first [discriminate | specialize (Hu u0 eq_refl); congruence]);
  try (intros; repeat split; intros; congruence);
  try (intros Hne; first [ destruct (Hne ex) as [? _]; congruence
                         | destruct (Hne es) as [_ [? _]]; congruence
                         | destruct (Hne eu) as [_ [_ Hu]]; exfalso; exact (Hu u0 eq_refl Epu) ]);
  try (intros _ H; destruct H as [H | [H | [u [Hu H]]]]; congruence);
  try (intros _ Hin; repeat destruct Hin as [Hin | Hin]; try discriminate; contradiction).
Qed.

Lemma windows2_any_h2_iff p :
  windows2_any_h2 p = true <-> exists l1 l2, p = l1 ++ Byte.x68 :: Byte.x32 :: l2.
Proof.
  induction p as [|a p IH].
  - split; [discriminate | intros [[|x l1] [l2 H]]; discriminate].
  - destruct p as [|b p'].
    + split; [discriminate |].
      intros [[|x [|y l1]] [l2 H]]; simpl in H; inversion H.
    + cbn [windows2_any_h2]. rewrite orb_true_iff, IH. split.
      * intros [Hab | [l1 [l2 H]]].
        -- apply andb_true_iff in Hab as [Ha Hb].
           apply Byte.byte_dec_bl in Ha, Hb. subst.
           exists [], p'. reflexivity.
        -- exists (a :: l1), l2. rewrite H. reflexivity.
      * intros [[|x l1] [l2 H]]; simpl in H; inversion H; subst.
        -- left. reflexivity.
        -- right. exists l1, l2. assumption.
Qed.

(** C7: behind a TLS acceptor (openssl or rustls) the connection is tagged
    [Http2] exactly when an ALPN protocol was negotiated whose bytes contain
    "h2", and [Http1] otherwise; the plain TCP service always tags [Http1]. *)
Theorem protocol_tagging (Io SocketAddr : Type) (io : Io) (peer : option SocketAddr)
    (alpn : option (list Byte.byte)) :
  (snd (fst (openssl_stage Io SocketAddr io alpn peer)) = Http2 <->
     exists protos l1 l2, alpn = Some protos /\ protos = l1 ++ Byte.x68 :: Byte.x32 :: l2)
  /\ (snd (fst (openssl_stage Io SocketAddr io alpn peer)) <> Http2 ->
      snd (fst (openssl_stage Io SocketAddr io alpn peer)) = Http1)
  /\ (snd (fst (rustls_stage Io SocketAddr io alpn peer)) = Http2 <->
     exists protos l1 l2, alpn = Some protos /\ protos = l1 ++ Byte.x68 :: Byte.x32 :: l2)
  /\ (snd (fst (rustls_stage Io SocketAddr io alpn peer)) <> Http2 ->
      snd (fst (rustls_stage Io SocketAddr io alpn peer)) = Http1)
  /\ tcp_stage Io SocketAddr io peer = (io, Http1, peer).
Proof.
  assert (Hsel : (match alpn with
                  | Some protos => if windows2_any_h2 protos then Http2 else Http1
                  | None => Http1 end = Http2) <->
                 exists protos l1 l2, alpn = Some protos
                   /\ protos = l1 ++ Byte.x68 :: Byte.x32 :: l2).
  { destruct alpn as [protos|].
    - destruct (windows2_any_h2 protos) eqn:E.
      + split; [intros _ | reflexivity].
        apply windows2_any_h2_iff in E as [l1 [l2 E]]. exists protos, l1, l2. auto.
      + split; [discriminate |]. intros [pr [l1 [l2 [Hs Hp]]]]. inversion Hs; subst.
        assert (windows2_any_h2 (l1 ++ Byte.x68 :: Byte.x32 :: l2) = true)
          by (apply windows2_any_h2_iff; eauto).
        congruence.
    - split; [discriminate | intros [pr [l1 [l2 [Hs _]]]]; discriminate]. }
  unfold openssl_stage, rustls_stage, tcp_stage; simpl.
  repeat split; try (apply Hsel); try (intros; apply Hsel; assumption);
    destruct alpn as [protos|]; try (destruct (windows2_any_h2 protos)); congruence.
Qed.

Ltac inv_finish :=
  repeat first
    [ exact I | assumption | reflexivity | congruence | contradiction
    | solve [eapply in_or_app; left; eauto]
    | solve [eapply in_or_app; right; simpl; auto]
    | match goal with
      | Hnm : forall s, ~ In _ ?l, H : In _ ?l |- _ => destruct (Hnm _ H)
      | |- exists pre, ?e0 ++ ?l = pre ++ [_] /\ _ =>
          let p := eval cbv [removelast] in (removelast l) in
          exists (e0 ++ p); split; [rewrite <- app_assoc; reflexivity |]
      | |- exists x, Some _ = Some x /\ _ => eexists; split; [reflexivity |]
      | |- _ /\ _ => split
      | |- _ <-> _ => split
      | |- forall _, _ => intro
      | |- ~ _ => intro
      | |- _ -> _ => intro
      | H : In _ (_ ++ _) |- _ => apply in_app_or in H; destruct H as [H|H]
      | H : In _ (_ :: _) |- _ => destruct H as [H|H]
      | H : In _ [] |- _ => destruct H
      | H : Some _ = Some _ |- _ => injection H as H; subst
      end ].

Section Construction.
Variables SF XF UF S X U FS FX FU ServiceConfig ConnectCallback : Type.
Variable srv_new_service : SF -> FS.
Variable expect_new_service : XF -> FX.
Variable upgrade_new_service : UF -> FU.

Local Abbreviation new_service :=
  (new_service srv_new_service expect_new_service upgrade_new_service).

Lemma new_service_inv (f : HttpServiceFactory SF XF UF ServiceConfig ConnectCallback) :
  response_inv (S := S) (X := X) (U := U) f (new_service f) [].
Proof.
  unfold response_inv; simpl.
  split; [reflexivity |]. split; [discriminate |]. split; [intros s [] |].
  destruct (upgrade_f f) as [uf|]; simpl.
  - split; [discriminate | reflexivity].
  - split; [tauto | intros u Hu; discriminate].
Qed.

Lemma poll_inv (f : HttpServiceFactory SF XF UF ServiceConfig ConnectCallback)
    (st : HttpServiceResponse X U FS FX FU ServiceConfig ConnectCallback) evs0
    (rd : Round S X U) :
  response_inv f st evs0 ->
  match poll st rd with
  | (st', ev, O_Pending) => response_inv f st' (evs0 ++ ev)
  | (_, ev, O_Ok h) =>
      exists pre, evs0 ++ ev = pre ++ [Ev_main (service (flow h))]
        /\ In (Ev_expect (expect (flow h))) pre
        /\ (upgrade (flow h) = None <-> upgrade_f f = None)
        /\ (forall u, upgrade (flow h) = Some u -> In (Ev_upgrade u) pre)
        /\ h_cfg h = cfg f
  | (_, _, O_Panic) => False
  | (_, _, O_Err) => True
  end.
Proof.
  destruct st as [fu fe fug re ru oc c].
  unfold response_inv; simpl. intros [Hc [Hex [Hnm Hupg]]].
  unfold poll; simpl.
  destruct fe as [fx|]; [| destruct (Hex eq_refl) as [x0 [-> Hx0]]];
  (destruct fug as [fup|]; [destruct Hupg as [Hf ->] | destruct Hupg as [Hiff Hin]]);
  destruct (o_ex rd) as [[x|[]]|], (o_upg rd) as [[u|[]]|], (o_main rd) as [[s|[]]|];
  simpl; try exact I; subst c; inv_finish.
Qed.

Lemma run_inv (f : HttpServiceFactory SF XF UF ServiceConfig ConnectCallback)
    (rounds : list (Round S X U)) :
  forall (st : HttpServiceResponse X U FS FX FU ServiceConfig ConnectCallback) evs0,
  response_inv f st evs0 ->
  match run st rounds with
  | (ev, O_Ok h) =>
      exists pre, evs0 ++ ev = pre ++ [Ev_main (service (flow h))]
        /\ In (Ev_expect (expect (flow h))) pre
        /\ (upgrade (flow h) = None <-> upgrade_f f = None)
        /\ (forall u, upgrade (flow h) = Some u -> In (Ev_upgrade u) pre)
        /\ h_cfg h = cfg f
  | (_, O_Panic) => False
  | (_, _) => True
  end.
Proof.
  induction rounds as [|rd rest IH]; intros st evs0 Hinv; simpl; [exact I |].
  pose proof (poll_inv f st evs0 rd Hinv) as Hp.
  destruct (poll st rd) as [[st' ev] o]; destruct o; try exact I; try exact Hp.
  specialize (IH st' (evs0 ++ ev) Hp).
  destruct (run st' rest) as [ev' o']. rewrite app_assoc. destruct o'; exact IH.
Qed.

(** C8: driving [HttpServiceResponse] (the future of [new_service]) to
    completion, whatever its sub-futures report, never panics; when it
    produces a handler, the expect factory and, when one was supplied, the
    upgrade factory resolved successfully before the main one, whose
    resolution is the last event; the handler's flow holds the services
    they produced, the expect service always and the upgrade service iff an
    upgrade factory was supplied. *)
Theorem flow_construction (f : HttpServiceFactory SF XF UF ServiceConfig ConnectCallback)
    (rounds : list (Round S X U)) :
  match run (new_service f) rounds with
  | (ev, O_Ok h) =>
      exists pre, ev = pre ++ [Ev_main (service (flow h))]
        /\ In (Ev_expect (expect (flow h))) pre
        /\ ((exists u, upgrade (flow h) = Some u) <-> (exists uf, upgrade_f f = Some uf))
        /\ (forall u, upgrade (flow h) = Some u -> In (Ev_upgrade u) pre)
  | (_, O_Panic) => False
  | (_, _) => True
  end.
Proof.
  pose proof (run_inv f rounds (new_service f) [] (new_service_inv f)) as H.
  destruct (run (new_service f) rounds) as [ev [| |h|]]; try exact I; try exact H.
  destruct H as [pre [Hev [Hx [Hiff [Hu _]]]]].
  exists pre. split; [exact Hev |]. split; [exact Hx |]. split; [| exact Hu].
  destruct (upgrade (flow h)) as [u|], (upgrade_f f) as [uf|]; split; intros;
    try (eexists; reflexivity); try (destruct Hiff as [H1 H2]);
    try (discriminate (H2 eq_refl)); try (discriminate (H1 eq_refl));
    destruct H; discriminate.
Qed.

End Construction.

End ServiceFacts.

(** ** More of the connection service *)
Module ServiceExtra.
Import HttpService.

(** [poll_ready] fails only with [DispatchError::Service] of the first
    sub-service that fails, in the order expect, main, upgrade: it is
    [Ready(Err(Service(e)))] exactly when expect fails with [e], or expect
    does not fail and main fails with [e], or neither fails and the
    configured upgrade service fails with [e]. *)
Theorem poll_ready_error_order (S X U Error : Type) ps px pu (fl : HttpFlow S X U) e :
  (snd (poll_ready (Error := Error) ps px pu fl) = Ready (Err (DE_Service e)) <->
    px (expect fl) = Ready (Err e)
    \/ ((forall e', px (expect fl) <> Ready (Err e'))
        /\ (ps (service fl) = Ready (Err e)
            \/ ((forall e', ps (service fl) <> Ready (Err e'))
                /\ exists u, upgrade fl = Some u /\ pu u = Ready (Err e)))))
  /\ snd (poll_ready ps px pu fl) <> Ready (Err DE_Other).
Proof.
  unfold poll_ready, ready_of.
  destruct (px (expect fl)) as [[[]|ex]|] eqn:Ex;
  destruct (ps (service fl)) as [[[]|es]|] eqn:Es;
  destruct (upgrade fl) as [u0|] eqn:Eu;
  try destruct (pu u0) as [[[]|eu]|] eqn:Epu; simpl;
  (split; [split|]);
  try discriminate;
  try (intros H; injection H as ->);
  try (intros [H|[Hn H]]; [injection H as ->; reflexivity|]);
  firstorder congruence.
Qed.

(** When neither the expect nor the main service fails, [poll_ready] polls
    every service of the flow, in the order expect, main, upgrade: the main
    service is polled even when expect is pending, so each of them gets the
    task context to wake. *)
Theorem poll_ready_polls_all (S X U Error : Type) ps px pu (fl : HttpFlow S X U) :
  (forall e : Error, px (expect fl) <> Ready (Err e)) ->
  (forall e : Error, ps (service fl) <> Ready (Err e)) ->
  fst (poll_ready ps px pu fl)
  = [SubExpect; SubService] ++ match upgrade fl with Some _ => [SubUpgrade] | None => [] end.
Proof.
  intros Hx Hs. unfold poll_ready, ready_of.
  destruct (px (expect fl)) as [[[]|ex]|] eqn:Ex;
    [| exfalso; exact (Hx ex eq_refl) |];
  (destruct (ps (service fl)) as [[[]|es]|] eqn:Es;
    [| exfalso; exact (Hs es eq_refl) |]);
  destruct (upgrade fl) as [u0|];
  try destruct (pu u0) as [[[]|eu]|]; reflexivity.
Qed.

Section Construction.
Variables SF XF UF S X U FS FX FU ServiceConfig ConnectCallback : Type.
Variable srv_new_service : SF -> FS.
Variable expect_new_service : XF -> FX.
Variable upgrade_new_service : UF -> FU.

Local Abbreviation new_service :=
  (new_service srv_new_service expect_new_service upgrade_new_service).

Lemma new_service_trace (f : HttpServiceFactory SF XF UF ServiceConfig ConnectCallback) :
  response_trace_inv (S := S) (X := X) (U := U) (new_service f) [].
Proof.
  unfold response_trace_inv; simpl. repeat split.
Qed.

Lemma poll_trace (st : HttpServiceResponse X U FS FX FU ServiceConfig ConnectCallback) evs0
    (rd : Round S X U) :
  response_trace_inv st evs0 ->
  match poll st rd with
  | (st', ev, O_Pending) => response_trace_inv st' (evs0 ++ ev)
  | (_, ev, O_Ok h) =>
      evs0 ++ ev = Ev_expect (expect (flow h))
                   :: match upgrade (flow h) with Some u => [Ev_upgrade u] | None => [] end
                   ++ [Ev_main (service (flow h))]
  | _ => True
  end.
Proof.
  destruct st as [fu fe fug re ru oc c].
  unfold response_trace_inv; simpl. intros Hinv.
  unfold poll; simpl.
  destruct fe as [fx|];
    [destruct Hinv as [-> [-> ->]]; destruct fug as [fup|]
    | destruct Hinv as [x0 [-> Hinv]];
      destruct fug as [fup|], ru as [u1|]; try contradiction; subst evs0];
  destruct (o_ex rd) as [[x|[]]|], (o_upg rd) as [[u|[]]|], (o_main rd) as [[s|[]]|];
  simpl; first [exact I | reflexivity | eexists; split; reflexivity | idtac].
Qed.

Lemma run_trace (rounds : list (Round S X U)) :
  forall (st : HttpServiceResponse X U FS FX FU ServiceConfig ConnectCallback) evs0,
  response_trace_inv st evs0 ->
  match run st rounds with
  | (ev, O_Ok h) =>
      evs0 ++ ev = Ev_expect (expect (flow h))
                   :: match upgrade (flow h) with Some u => [Ev_upgrade u] | None => [] end
                   ++ [Ev_main (service (flow h))]
  | _ => True
  end.
Proof.
  induction rounds as [|rd rest IH]; intros st evs0 Hinv; simpl; [exact I |].
  pose proof (poll_trace st evs0 rd Hinv) as Hp.
  destruct (poll st rd) as [[st' ev] o]; destruct o; try exact I; try exact Hp.
  specialize (IH st' (evs0 ++ ev) Hp).
  destruct (run st' rest) as [ev' o']. rewrite app_assoc. destruct o'; exact IH.
Qed.

(** Driving the future of [new_service] to a handler, each sub-future
    resolves exactly once and they resolve in the order expect, upgrade (when
    configured), main: the events are exactly the expect service, then the
    upgrade service when the handler has one, then the main service. *)
Theorem response_event_trace (f : HttpServiceFactory SF XF UF ServiceConfig ConnectCallback)
    (rounds : list (Round S X U)) :
  match run (new_service f) rounds with
  | (ev, O_Ok h) =>
      ev = Ev_expect (expect (flow h))
           :: match upgrade (flow h) with Some u => [Ev_upgrade u] | None => [] end
           ++ [Ev_main (service (flow h))]
  | _ => True
  end.
Proof. exact (run_trace rounds (new_service f) [] (new_service_trace f)). Qed.

Lemma poll_on_connect (st : HttpServiceResponse X U FS FX FU ServiceConfig ConnectCallback)
    (rd : Round S X U) :
  match poll st rd with
  | (_, _, O_Ok h) => h_on_connect_ext h = r_on_connect_ext st
  | (st', _, _) => r_on_connect_ext st' = r_on_connect_ext st
  end.
Proof.
  destruct st as [fu fe fug re ru oc c]. unfold poll; simpl.
  destruct fe as [fx|], fug as [fup|], re as [x0|];
    destruct (o_ex rd) as [[x|[]]|], (o_upg rd) as [[u|[]]|], (o_main rd) as [[s|[]]|];
    reflexivity.
Qed.

Lemma run_on_connect (rounds : list (Round S X U)) :
  forall (st : HttpServiceResponse X U FS FX FU ServiceConfig ConnectCallback),
  match run st rounds with
  | (_, O_Ok h) => h_on_connect_ext h = r_on_connect_ext st
  | _ => True
  end.
Proof.
  induction rounds as [|rd rest IH]; intros st; simpl; [exact I |].
  pose proof (poll_on_connect st rd) as Hp.
  destruct (poll st rd) as [[st' ev] o]; destruct o; try exact I; try exact Hp.
  specialize (IH st'). rewrite Hp in IH.
  destruct (run st' rest) as [ev' o']. exact IH.
Qed.

Lemma run_handler (f : HttpServiceFactory SF XF UF ServiceConfig ConnectCallback)
    (rounds : list (Round S X U)) :
  match run (new_service f) rounds with
  | (_, O_Ok h) =>
      (upgrade (flow h) = None <-> upgrade_f f = None)
      /\ h_on_connect_ext h = on_connect_ext f /\ h_cfg h = cfg f
  | _ => True
  end.
Proof.
  pose proof (ServiceFacts.run_inv SF XF UF S X U FS FX FU ServiceConfig ConnectCallback
    f rounds (new_service f) []
    (ServiceFacts.new_service_inv SF XF UF S X U FS FX FU ServiceConfig ConnectCallback
       srv_new_service expect_new_service upgrade_new_service f)) as Hi.
  pose proof (run_on_connect rounds (new_service f)) as Ho.
  destruct (run (new_service f) rounds) as [ev [| |h|]]; try exact I.
  destruct Hi as [pre [_ [_ [Hu [_ Hc]]]]].
  split; [exact Hu |]. split; [exact Ho | exact Hc].
Qed.

(** The handlers the builder produces: from [HttpService::new] or
    [with_config] the handler has no upgrade service and no connect
    callback, and carries the given configuration; after [.expect(x)],
    [.upgrade(u)] and [.on_connect_ext(cb)] it has an upgrade service
    exactly when [u] is [Some], the callback [cb], and still the
    configuration of [with_config]. *)
Theorem builder_handlers (eh x1 : XF) (c : ServiceConfig) (s : SF) (u : option UF)
    (cb : option ConnectCallback) (rounds : list (Round S X U)) :
  match run (new_service (Builder.new UF ConnectCallback eh c s)) rounds with
  | (_, O_Ok h) => upgrade (flow h) = None /\ h_on_connect_ext h = None /\ h_cfg h = c
  | _ => True
  end
  /\ match run (new_service (Builder.with_config UF ConnectCallback eh c s)) rounds with
     | (_, O_Ok h) => upgrade (flow h) = None /\ h_on_connect_ext h = None /\ h_cfg h = c
     | _ => True
     end
  /\ match run (new_service (Builder.on_connect_ext
                  (Builder.upgrade (Builder.expect
                     (Builder.with_config UF ConnectCallback eh c s) x1) u) cb)) rounds with
     | (_, O_Ok h) =>
         (upgrade (flow h) = None <-> u = None) /\ h_on_connect_ext h = cb /\ h_cfg h = c
     | _ => True
     end.
Proof.
  split; [| split].
  - pose proof (run_handler (Builder.new UF ConnectCallback eh c s) rounds) as H.
    destruct (run _ rounds) as [ev [| |h|]]; try exact I.
    destruct H as [[_ Hu] [Ho Hc]]. split; [exact (Hu eq_refl) |]. split; assumption.
  - pose proof (run_handler (Builder.with_config UF ConnectCallback eh c s) rounds) as H.
    destruct (run _ rounds) as [ev [| |h|]]; try exact I.
    destruct H as [[_ Hu] [Ho Hc]]. split; [exact (Hu eq_refl) |]. split; assumption.
  - pose proof (run_handler (Builder.on_connect_ext
                  (Builder.upgrade (Builder.expect
                     (Builder.with_config UF ConnectCallback eh c s) x1) u) cb) rounds) as H.
    destruct (run _ rounds) as [ev [| |h|]]; try exact I.
    exact H.
Qed.

End Construction.

Section Call.
Variables S X U ServiceConfig ConnectCallback Io SocketAddr OnConnectData : Type.
Variable from_io : Io -> option ConnectCallback -> OnConnectData.

(** The acceptor stages followed by [call]: behind the plain TCP stage a
    connection always goes to the HTTP/1 dispatcher; behind the openssl or
    rustls stage it goes to the HTTP/2 handshake exactly when the ALPN
    protocol contains "h2", and to the HTTP/1 dispatcher otherwise; so the
    [unimplemented!] branch is never taken.  Every branch gets the handler's
    flow and configuration, the connect data built from the stream and the
    handler's callback, and the stage's peer address. *)
Theorem call_dispatch (h : HttpServiceHandler S X U ServiceConfig ConnectCallback)
    (io : Io) (peer : option SocketAddr) (alpn : option (list Byte.byte)) :
  let ocd := from_io io (h_on_connect_ext h) in
  call from_io h (tcp_stage Io SocketAddr io peer) = D_H1 io (flow h) ocd peer (h_cfg h)
  /\ ((exists protos l1 l2, alpn = Some protos /\ protos = l1 ++ Byte.x68 :: Byte.x32 :: l2) ->
      call from_io h (openssl_stage Io SocketAddr io alpn peer)
      = D_H2 io (flow h) ocd (h_cfg h) peer
      /\ call from_io h (rustls_stage Io SocketAddr io alpn peer)
         = D_H2 io (flow h) ocd (h_cfg h) peer)
  /\ (~ (exists protos l1 l2, alpn = Some protos /\ protos = l1 ++ Byte.x68 :: Byte.x32 :: l2) ->
      call from_io h (openssl_stage Io SocketAddr io alpn peer)
      = D_H1 io (flow h) ocd peer (h_cfg h)
      /\ call from_io h (rustls_stage Io SocketAddr io alpn peer)
         = D_H1 io (flow h) ocd peer (h_cfg h))
  /\ (forall p, call from_io h (tcp_stage Io SocketAddr io peer) <> D_Unimplemented p
       /\ call from_io h (openssl_stage Io SocketAddr io alpn peer) <> D_Unimplemented p
       /\ call from_io h (rustls_stage Io SocketAddr io alpn peer) <> D_Unimplemented p).
Proof.
  intros ocd. unfold call, tcp_stage, openssl_stage, rustls_stage.
  split; [reflexivity |].
  destruct alpn as [protos|].
  - destruct (windows2_any_h2 protos) eqn:E.
    + apply ServiceFacts.windows2_any_h2_iff in E.
      split; [intros _; split; reflexivity |].
      split; [| intros p; repeat split; discriminate].
      intros Hn. exfalso. apply Hn. destruct E as [l1 [l2 E]]. exists protos, l1, l2. auto.
    + split; [| split; [intros _; split; reflexivity | intros p; repeat split; discriminate]].
      intros [pr [l1 [l2 [Hs Hp]]]]. injection Hs as <-.
      assert (windows2_any_h2 protos = true)
        by (apply ServiceFacts.windows2_any_h2_iff; exists l1, l2; exact Hp).
      congruence.
  - split; [intros [pr [l1 [l2 [Hs _]]]]; discriminate |].
    split; [intros _; split; reflexivity | intros p; repeat split; discriminate].
Qed.

End Call.

End ServiceExtra.

(** ** The scenarios, on the wire decoder *)
Module ScenarioFacts.
Import Wire.

(** C1 (witness): after decoding a keep-alive HTTP/1.1 head under the
    configuration of [HttpService::new], the codec is keep-alive and the
    gating holds. *)
Lemma keepalive_gating_witness :
  let c1 := fst (fst (codec_decode (codec_new http_service_config) get_11_head)) in
  codec_reachable http_service_config c1 /\ H1.ctype c1 = KeepAlive
  /\ (H1.ctype c1 = KeepAlive -> contains (H1.flags c1) KEEPALIVE_ENABLED = true)
  /\ (H1.keepalive_enabled c1 = false -> H1.keepalive c1 = false).
Proof.
  intros c1.
  assert (Hr : codec_reachable http_service_config c1).
  { eapply H1.reach_step; [apply H1.reach_new |].
    apply H1.step_decode with (src := get_11_head)
      (src' := snd (fst (codec_decode (codec_new http_service_config) get_11_head)))
      (r := snd (codec_decode (codec_new http_service_config) get_11_head)).
    vm_compute. reflexivity. }
  split; [exact Hr |]. split; [vm_compute; reflexivity |].
  exact (CodecFacts.keepalive_gating _ _ _ _ _ _ _ _ _ _ _ _ _ _ _ _ _ _ _ Hr).
Defined.

(** C2 (counterexample): an HTTP/1.0 POST delimited by close decodes to a
    [Stream] payload; a bodyless GET decoded next on the same codec has
    payload [None], yet STREAM is still set. *)
Lemma stream_flag_sticky :
  let '(c1, _, r1) := codec_decode (codec_new http_service_config) post_10_head in
  let '(c2, _, r2) := codec_decode c1 get_11_head in
  r1 = Ok (Some (mkRequest POST (bs "/") HTTP_10 [], PT_Stream PD_Eof))
  /\ r2 = Ok (Some (mkRequest GET (bs "/") HTTP_11 [], PT_None))
  /\ contains (H1.flags c2) STREAM = true.
Proof. vm_compute. repeat split. Qed.

(** C4 (counterexample): after the first head, [Codec::decode] on the
    buffer holding the chunked body does not yield the chunk "data": its
    items are heads only, and the body bytes do not parse as one. *)
Lemma codec_decode_body_bytes :
  let c1 := fst (fst (codec_decode (codec_new http_service_config) s1_first)) in
  snd (codec_decode c1 (snd (fst (codec_decode (codec_new http_service_config) s1_first))
                        ++ s1_appended)) = Err PE_Method.
Proof. vm_compute. reflexivity. Qed.

(** C4 (amended): scenario S1.  The first decode yields GET /test with a
    chunked payload and consumes the head; the payload decoder then yields
    "data", "line" and EOF from the appended bytes, leaving exactly the next
    head, which the same codec decodes to POST /test2 with a chunked
    payload, consuming the buffer; for every configuration. *)
Theorem pipelined_chunked_scenario cfg :
  let '(c1, buf1, r1) := codec_decode (codec_new cfg) s1_first in
  let rest1 := bs "4" ++ crlf ++ bs "line" ++ crlf ++ bs "0" ++ crlf ++ crlf ++ s1_next_head in
  let rest2 := bs "0" ++ crlf ++ crlf ++ s1_next_head in
  r1 = Ok (Some (mkRequest GET (bs "/test") HTTP_11 chunked_headers,
                 PT_Payload (PD_Chunked false)))
  /\ buf1 = []
  /\ payload_decode (PD_Chunked false) (buf1 ++ s1_appended)
     = (PD_Chunked false, rest1, Ok (Some (PI_Chunk (bs "data"))))
  /\ payload_decode (PD_Chunked false) rest1
     = (PD_Chunked false, rest2, Ok (Some (PI_Chunk (bs "line"))))
  /\ payload_decode (PD_Chunked false) rest2
     = (PD_Chunked true, s1_next_head, Ok (Some PI_Eof))
  /\ snd (fst (codec_decode c1 s1_next_head)) = []
  /\ snd (codec_decode c1 s1_next_head)
     = Ok (Some (mkRequest POST (bs "/test2") HTTP_11 chunked_headers,
                 PT_Payload (PD_Chunked false))).
Proof.
  destruct cfg as [[|secs|] ct sh]; vm_compute; repeat split.
Qed.

End ScenarioFacts.

(** ** Instances of the preconditions *)
Module ExtraWitnesses.
Import Wire.

(** After decoding a keep-alive HTTP/1.1 head under the configuration of
    [HttpService::new], the codec is reachable and still carries that
    configuration, with keep-alive enabled. *)
Lemma reachable_config_witness :
  let c1 := fst (fst (codec_decode (codec_new http_service_config) get_11_head)) in
  codec_reachable http_service_config c1
  /\ H1.config c1 = http_service_config
  /\ H1.keepalive_enabled c1 = keep_alive_enabled http_service_config.
Proof.
  intros c1.
  assert (Hr : codec_reachable http_service_config c1).
  { eapply H1.reach_step; [apply H1.reach_new |].
    apply H1.step_decode with (src := get_11_head)
      (src' := snd (fst (codec_decode (codec_new http_service_config) get_11_head)))
      (r := snd (codec_decode (codec_new http_service_config) get_11_head)).
    vm_compute. reflexivity. }
  split; [exact Hr |].
  exact (CodecFacts.reachable_config _ _ _ _ _ _ _ _ _ _ _ _ _ _ _ _ _ _ _ Hr).
Defined.

(** An expect service that is pending, a main service that is ready and an
    upgrade service: all three are polled. *)
Lemma poll_ready_polls_all_witness :
  let fl := HttpService.mkHttpFlow tt tt (Some tt) in
  let px := fun _ : unit => (Pending : Poll (result unit unit)) in
  let ps := fun _ : unit => (Ready (Ok tt) : Poll (result unit unit)) in
  (forall e, px (HttpService.expect fl) <> Ready (Err e))
  /\ (forall e, ps (HttpService.service fl) <> Ready (Err e))
  /\ fst (HttpService.poll_ready ps px ps fl)
     = [HttpService.SubExpect; HttpService.SubService] ++ [HttpService.SubUpgrade].
Proof.
  intros fl px ps.
  assert (Hx : forall e, px (HttpService.expect fl) <> Ready (Err e)) by discriminate.
  assert (Hs : forall e, ps (HttpService.service fl) <> Ready (Err e)) by discriminate.
  split; [exact Hx |]. split; [exact Hs |].
  exact (ServiceExtra.poll_ready_polls_all unit unit unit unit ps px ps fl Hx Hs).
Defined.

End ExtraWitnesses.
